(** * Neotron BMC firmware: a shallow embedding of its protocol and state engines

    Sources: [neotron-bmc-pico/src/main.rs] and [neotron-bmc-nucleo/src/main.rs].
    Machine integers are [Z] with their wrap-around written out; the RTIC
    tasks are modelled as functions from the shared resources they touch to
    the new resources and the list of spawn requests they issue. *)

From Stdlib Require Import ZArith List Bool Lia Ascii String.
Import ListNotations.
Open Scope Z_scope.

(** ** Machine integers *)

(** [x as u8] / [x as u16]: truncation to the low 8 / 16 bits. *)
Definition as_u8 (x : Z) : Z := Z.land x 255.
Definition as_u16 (x : Z) : Z := Z.land x 65535.

(** [u8::count_ones] *)
Fixpoint count_ones_n (n : nat) (x : Z) : Z :=
  match n with
  | O => 0
  | S n' => (if Z.testbit x 0 then 1 else 0) + count_ones_n n' (Z.shiftr x 1)
  end.

Definition u8_count_ones (x : Z) : Z := count_ones_n 8 x.

(** Value of a list of bits, least significant bit first. *)
Fixpoint bits_value (l : list bool) : Z :=
  match l with
  | [] => 0
  | b :: t => (if b then 1 else 0) + 2 * bits_value t
  end.

(** All bit lists of a given length. *)
Fixpoint all_bits (n : nat) : list (list bool) :=
  match n with
  | O => [[]]
  | S n' => map (cons false) (all_bits n') ++ map (cons true) (all_bits n')
  end.

(** ** PS/2 decoder ([impl Ps2Decoder]) *)
Module Ps2.

(** [struct Ps2Decoder { bit_mask: u16, collector: u16 }] *)
Record Ps2Decoder := mk_decoder { bit_mask : Z; collector : Z }.

(** [Ps2Decoder::new] (identical in both firmwares). *)
Definition new : Ps2Decoder := mk_decoder 1 0.

(** Pico [Ps2Decoder::reset]: [bit_mask = 1; collector = 0]. *)
Definition reset : Ps2Decoder := mk_decoder 1 0.

(** Pico [Ps2Decoder::add_bit]. *)
Definition add_bit (d : Ps2Decoder) (bit : bool) : Ps2Decoder * option Z :=
  let coll := if bit then Z.lor (collector d) (bit_mask d) else collector d in
  if bit_mask d =? 1024 then
    let result := coll in (reset, Some result)
  else (mk_decoder (as_u16 (Z.shiftl (bit_mask d) 1)) coll, None).

(** Nucleo [Ps2Decoder::reset]: [bit_mask = 0; collector = 0]. *)
Definition reset_nucleo : Ps2Decoder := mk_decoder 0 0.

(** Nucleo [Ps2Decoder::add_bit]: shifts the mask first, then compares it
    with [0b1000_0000_0000]. *)
Definition add_bit_nucleo (d : Ps2Decoder) (bit : bool) : Ps2Decoder * option Z :=
  let coll := if bit then Z.lor (collector d) (bit_mask d) else collector d in
  let mask := as_u16 (Z.shiftl (bit_mask d) 1) in
  if mask =? 2048 then
    let result := coll in (reset_nucleo, Some result)
  else (mk_decoder mask coll, None).

(** Feeding a sequence of bits (one per falling clock edge) to a decoder;
    the results of [add_bit] are collected in order. *)
Fixpoint feed (step : Ps2Decoder -> bool -> Ps2Decoder * option Z)
    (d : Ps2Decoder) (bits : list bool) : Ps2Decoder * list (option Z) :=
  match bits with
  | [] => (d, [])
  | b :: t =>
      let (d1, o) := step d b in
      let (d2, os) := feed step d1 t in
      (d2, o :: os)
  end.

(** [Ps2Decoder::check_word] (identical in both firmwares: the masks
    [0b000_0000_0001], [0b010_0000_0000], [0b100_0000_0000] are
    [0x0001], [0x0200], [0x0400]). *)
Definition check_word (word : Z) : option Z :=
  let start_bit := negb (Z.land word 1 =? 0) in
  let parity_bit := negb (Z.land word 512 =? 0) in
  let stop_bit := negb (Z.land word 1024 =? 0) in
  let data := as_u8 (Z.land (Z.shiftr word 1) 255) in
  if start_bit then None
  else if negb stop_bit then None
  else
    let need_parity := Z.modulo (u8_count_ones data) 2 =? 0 in
    if negb (Bool.eqb need_parity parity_bit) then None
    else Some data.

(** The PS/2 framing, read from the protocol description: data byte in
    word bits 1..8, least significant first. *)
Definition frame_data (w : Z) : Z :=
  bits_value (map (fun i => Z.testbit w (Z.of_nat i)) (seq 1 8)).

(** Start bit 0, stop bit 1, and an odd number of one bits among the data
    bits and the parity bit (word bits 1..9). *)
Definition frame_ok (w : Z) : bool :=
  negb (Z.testbit w 0) && Z.testbit w 10 &&
  Z.odd (Z.of_nat (List.length (filter (fun i => Z.testbit w (Z.of_nat i)) (seq 1 9)))).

Definition check_word_matches_frame (w : Z) : bool :=
  match check_word w, (if frame_ok w then Some (frame_data w) else None) with
  | None, None => true
  | Some a, Some b => a =? b
  | _, _ => false
  end.

End Ps2.

(** ** Power sequencer ([button_poll], [exit_reset], [led_power_blink])

    The debouncers ([debouncr::Debouncer::update]) are a third-party crate:
    their results, one optional edge per debouncer and poll, are the inputs
    of a poll.  GPIO writes and task spawns are the actions a task issues,
    in program order. *)
Module Power.

(** [enum DcPowerState] *)
Inductive DcPowerState := Starting | On | Off.

Definition DcPowerState_eqb (a b : DcPowerState) : bool :=
  match a, b with
  | Starting, Starting | On, On | Off, Off => true
  | _, _ => false
  end.

(** [debouncr::Edge] *)
Inductive Edge := Rising | Falling.

Inductive Level := Low | High.

Inductive Task := LedPowerBlink | ButtonPoll | ExitReset.

Definition LED_PERIOD_MS : Z := 1000.
Definition DEBOUNCE_POLL_INTERVAL_MS : Z := 75.
Definition RESET_DURATION_MS : Z := 250.

Inductive Action :=
| SetLedPower (l : Level)
| SetDcOn (l : Level)
| SetSysReset (l : Level)
| Spawn (t : Task)                  (* [t::spawn()] *)
| SpawnAfter (t : Task) (ms : Z).   (* [t::spawn_after(ms.millis())] *)

(** The [match (pwr_long_edge, pwr_short_edge, state)] of [button_poll]
    (pico; the nucleo arms write the same pins in the same order). *)
Definition dispatch (pwr_long_edge pwr_short_edge : option Edge)
    (st : DcPowerState) : DcPowerState * list Action :=
  match pwr_long_edge, pwr_short_edge, st with
  | None, Some Rising, Off =>
      (Starting, [SetLedPower High; SetDcOn High; SetSysReset High])
  | None, Some Falling, Starting =>
      (On, [])
  | Some Rising, None, On =>
      (Off, [SetLedPower Low; SetSysReset Low; SetDcOn Low; Spawn LedPowerBlink])
  | _, _, _ => (st, [])
  end.

(** Pico: "Did reset get a long press?" (reads the state after the
    dispatch). *)
Definition reset_check (rst_long_edge : option Edge) (st : DcPowerState)
    : list Action :=
  match rst_long_edge with
  | Some Rising =>
      if DcPowerState_eqb st On
      then [SetSysReset Low; SpawnAfter ExitReset RESET_DURATION_MS]
      else []
  | _ => []
  end.

(** Pico [button_poll], from the three debouncer results. *)
Definition button_poll (pwr_long_edge pwr_short_edge rst_long_edge : option Edge)
    (st : DcPowerState) : DcPowerState * list Action :=
  let (st1, acts1) := dispatch pwr_long_edge pwr_short_edge st in
  (st1, acts1 ++ reset_check rst_long_edge st1
              ++ [SpawnAfter ButtonPoll DEBOUNCE_POLL_INTERVAL_MS]).

(** Nucleo: [if let Some(Edge::Falling) = rst_long_edge] pulses the reset
    line low then high, whatever the power state. *)
Definition reset_check_nucleo (rst_long_edge : option Edge) (st : DcPowerState)
    : list Action :=
  match rst_long_edge with
  | Some Falling => [SetSysReset Low; SetSysReset High]
  | _ => []
  end.

(** Nucleo [button_poll]. *)
Definition button_poll_nucleo (pwr_long_edge pwr_short_edge rst_long_edge : option Edge)
    (st : DcPowerState) : DcPowerState * list Action :=
  let (st1, acts1) := dispatch pwr_long_edge pwr_short_edge st in
  (st1, acts1 ++ reset_check_nucleo rst_long_edge st1
              ++ [SpawnAfter ButtonPoll DEBOUNCE_POLL_INTERVAL_MS]).

(** [exit_reset]: release the reset line only if still powered on. *)
Definition exit_reset (st : DcPowerState) : list Action :=
  if DcPowerState_eqb st On then [SetSysReset High] else [].

(** [led_power_blink] with its local [led_state]. *)
Definition led_power_blink (st : DcPowerState) (led_state : bool)
    : bool * list Action :=
  if DcPowerState_eqb st Off then
    if led_state
    then (false, [SetLedPower Low; SpawnAfter LedPowerBlink LED_PERIOD_MS])
    else (true, [SetLedPower High; SpawnAfter LedPowerBlink LED_PERIOD_MS])
  else (led_state, []).

(** The shared and local resources these tasks touch, with RTIC's
    one-pending-instance-per-task spawn queues. *)
Record Board := mk_board {
  state_dc_power_enabled : DcPowerState;
  led_power : Level;
  pin_dc_on : Level;
  pin_sys_reset : Level;
  led_state : bool;
  blink_pending : bool;
  exit_reset_pending : bool
}.

(** State after [init]: reset and DC low, LED low, [led_power_blink]
    spawned. *)
Definition init : Board := mk_board Off Low Low Low false true false.

Definition set_led b l := mk_board (state_dc_power_enabled b) l (pin_dc_on b)
  (pin_sys_reset b) (led_state b) (blink_pending b) (exit_reset_pending b).
Definition set_dc b l := mk_board (state_dc_power_enabled b) (led_power b) l
  (pin_sys_reset b) (led_state b) (blink_pending b) (exit_reset_pending b).
Definition set_rst b l := mk_board (state_dc_power_enabled b) (led_power b)
  (pin_dc_on b) l (led_state b) (blink_pending b) (exit_reset_pending b).
Definition set_state b s := mk_board s (led_power b) (pin_dc_on b)
  (pin_sys_reset b) (led_state b) (blink_pending b) (exit_reset_pending b).
Definition set_led_state b v := mk_board (state_dc_power_enabled b) (led_power b)
  (pin_dc_on b) (pin_sys_reset b) v (blink_pending b) (exit_reset_pending b).
Definition set_blink_pending b v := mk_board (state_dc_power_enabled b) (led_power b)
  (pin_dc_on b) (pin_sys_reset b) (led_state b) v (exit_reset_pending b).
Definition set_exit_reset_pending b v := mk_board (state_dc_power_enabled b)
  (led_power b) (pin_dc_on b) (pin_sys_reset b) (led_state b) (blink_pending b) v.

(** Effect of one action; [None] is a panic: [led_power_blink] is spawned
    with [.unwrap()], which fails while an instance is pending.  A failed
    [exit_reset] spawn is ignored ([let _ = ...]); [button_poll] re-arms
    itself from its own body, where it is never pending. *)
Definition apply_action (b : Board) (a : Action) : option Board :=
  match a with
  | SetLedPower l => Some (set_led b l)
  | SetDcOn l => Some (set_dc b l)
  | SetSysReset l => Some (set_rst b l)
  | Spawn LedPowerBlink | SpawnAfter LedPowerBlink _ =>
      if blink_pending b then None else Some (set_blink_pending b true)
  | Spawn ExitReset | SpawnAfter ExitReset _ => Some (set_exit_reset_pending b true)
  | Spawn ButtonPoll | SpawnAfter ButtonPoll _ => Some b
  end.

Fixpoint apply_actions (b : Board) (acts : list Action) : option Board :=
  match acts with
  | [] => Some b
  | a :: t => match apply_action b a with
              | Some b1 => apply_actions b1 t
              | None => None
              end
  end.

(** Events of the pico firmware's power side: a poll with its debouncer
    results, or the run of a pending delayed task. *)
Inductive Event :=
| Poll (pwr_long_edge pwr_short_edge rst_long_edge : option Edge)
| RunExitReset
| RunLedPowerBlink.

(** One task run; [None] when the task is not pending or panics. *)
Definition step (b : Board) (e : Event) : option Board :=
  match e with
  | Poll l s r =>
      let (st1, acts) := button_poll l s r (state_dc_power_enabled b) in
      apply_actions (set_state b st1) acts
  | RunExitReset =>
      if exit_reset_pending b then
        apply_actions (set_exit_reset_pending b false)
          (exit_reset (state_dc_power_enabled b))
      else None
  | RunLedPowerBlink =>
      if blink_pending b then
        let (ls, acts) := led_power_blink (state_dc_power_enabled b) (led_state b) in
        apply_actions (set_led_state (set_blink_pending b false) ls) acts
      else None
  end.

Fixpoint run (b : Board) (es : list Event) : option Board :=
  match es with
  | [] => Some b
  | e :: t => match step b e with Some b1 => run b1 t | None => None end
  end.

Inductive reachable : Board -> Prop :=
| reachable_init : reachable init
| reachable_step b e b' : reachable b -> step b e = Some b' -> reachable b'.

End Power.

(** ** SPI register server ([SpiPeripheral], [spi1_interrupt], EXTI4 CS edges)

    The peripheral's data register is modelled by its RX and TX FIFOs:
    [raw_read] pops the RX FIFO, [raw_write] pushes onto the TX FIFO
    (its 4-byte hardware capacity is never reached below). *)
Module Spi.

Record Dev := mk_dev { spe : bool; rx_fifo : list Z; tx_fifo : list Z }.

(** [struct SpiPeripheral { dev, count: u8, reply_byte: Option<u8> }] *)
Record SpiPeripheral := mk_spi { dev : Dev; count : Z; reply_byte : option Z }.

(** After [SpiPeripheral::new]: SPE off, RX drained, counter 0, no reply. *)
Definition spi_new : SpiPeripheral := mk_spi (mk_dev false [] []) 0 None.

Definition raw_write (s : SpiPeripheral) (data : Z) : SpiPeripheral :=
  let d := dev s in
  mk_spi (mk_dev (spe d) (rx_fifo d) (tx_fifo d ++ [data])) (count s) (reply_byte s).

Definition raw_read (s : SpiPeripheral) : Z * SpiPeripheral :=
  let d := dev s in
  match rx_fifo d with
  | [] => (0, s)
  | x :: t => (x, mk_spi (mk_dev (spe d) t (tx_fifo d)) (count s) (reply_byte s))
  end.

Definition has_rx_data (s : SpiPeripheral) : bool :=
  match rx_fifo (dev s) with [] => false | _ => true end.

(** [SpiPeripheral::enable] *)
Definition enable (s : SpiPeripheral) : SpiPeripheral :=
  let d := dev s in
  raw_write (mk_spi (mk_dev true (rx_fifo d) (tx_fifo d)) 0 None) 255.

(** [SpiPeripheral::disable] *)
Definition disable (s : SpiPeripheral) : SpiPeripheral :=
  let d := dev s in
  mk_spi (mk_dev false (rx_fifo d) (tx_fifo d)) (count s) (reply_byte s).

(** [SpiPeripheral::read]; [self.count += 1] wraps at 256. *)
Definition read (s : SpiPeripheral) : SpiPeripheral * option Z :=
  if has_rx_data s then
    let (cmd, s1) := raw_read s in
    let s2 := match reply_byte s1 with
              | Some x =>
                  let taken := mk_spi (dev s1) (count s1) None in
                  raw_write (raw_write taken x) 255
              | None => s1
              end in
    let c := as_u8 (count s2 + 1) in
    let s3 := mk_spi (dev s2) c (reply_byte s2) in
    (s3, if c =? 2 then Some cmd else None)
  else (s, None).

(** [SpiPeripheral::reply] *)
Definition reply (s : SpiPeripheral) (value : Z) : SpiPeripheral :=
  mk_spi (dev s) (count s) (Some value).

(** The byte [spi1_interrupt] answers for an offset:
    [firmware_version.as_bytes()[offset]] in range, [0xFF] otherwise. *)
Definition lookup (firmware_version : list Z) (offset : Z) : Z :=
  if offset <? Z.of_nat (List.length firmware_version)
  then nth (Z.to_nat offset) firmware_version 0
  else 255.

(** The [loop] of [spi1_interrupt]: each [Some] consumes one RX byte, so
    [1 + |rx|] rounds reach the [None => break]. *)
Fixpoint spi1_loop (fuel : nat) (fw : list Z) (s : SpiPeripheral) : SpiPeripheral :=
  match fuel with
  | O => s
  | S f =>
      let (s1, r) := read s in
      match r with
      | Some offset => spi1_loop f fw (reply s1 (lookup fw offset))
      | None => s1
      end
  end.

Definition spi1_interrupt (fw : list Z) (s : SpiPeripheral) : SpiPeripheral :=
  spi1_loop (S (List.length (rx_fifo (dev s)))) fw s.

(** Bus events seen by the peripheral: chip-select edges (EXTI4 calls
    [enable] on low, [disable] on high) and byte exchanges clocked by the
    host.  In an exchange an enabled peripheral shifts out the head of its
    TX FIFO ([None] when the FIFO is empty: an underrun, whose level the
    firmware does not set) and receives the host's byte; the RXNE
    interrupt ([spi1_interrupt]) then runs before the next exchange. *)
Inductive BusEvent := CsLow | CsHigh | Exchange (host_byte : Z).

Definition bus_step (fw : list Z) (s : SpiPeripheral) (e : BusEvent)
    : SpiPeripheral * list (option Z) :=
  match e with
  | CsLow => (enable s, [])
  | CsHigh => (disable s, [])
  | Exchange h =>
      let d := dev s in
      if spe d then
        let (out, tx) := match tx_fifo d with
                         | [] => (None, [])
                         | x :: t => (Some x, t)
                         end in
        let s1 := mk_spi (mk_dev true (rx_fifo d ++ [h]) tx) (count s) (reply_byte s) in
        (spi1_interrupt fw s1, [out])
      else (s, [None])
  end.

(** Bytes shifted out to the host, one per exchange. *)
Fixpoint bus_run (fw : list Z) (s : SpiPeripheral) (es : list BusEvent)
    : SpiPeripheral * list (option Z) :=
  match es with
  | [] => (s, [])
  | e :: t =>
      let (s1, o1) := bus_step fw s e in
      let (s2, o2) := bus_run fw s1 t in
      (s2, o1 ++ o2)
  end.

(** Successive received bytes within a session, each arriving in an
    empty RX FIFO and read by one [read]. *)
Fixpoint session_reads (s : SpiPeripheral) (bytes : list Z) : list (option Z) :=
  match bytes with
  | [] => []
  | b :: t =>
      let d := dev s in
      let (s1, r) := read (mk_spi (mk_dev (spe d) (rx_fifo d ++ [b]) (tx_fifo d))
                                  (count s) (reply_byte s)) in
      r :: session_reads s1 t
  end.

(** The identity string of the end-to-end example, "NEO". *)
Definition NEO : list Z := [78; 69; 79].

(** The loop of [SpiPeripheral::new] that empties the receive register:
    [while spi.read().is_some() {}]. *)
Fixpoint drain (fuel : nat) (s : SpiPeripheral) : SpiPeripheral :=
  match fuel with
  | O => s
  | S f =>
      let (s1, r) := read s in
      match r with
      | Some _ => drain f s1
      | None => s1
      end
  end.

(** The peripheral [new] builds before that loop: SPE off, [count: 0],
    [reply_byte: None], and whatever the FIFOs hold. *)
Definition new_before_drain (rx tx : list Z) : SpiPeripheral :=
  mk_spi (mk_dev false rx tx) 0 None.

End Spi.

(** ** Keyboard word queue: [heapless::spsc::Queue<u16, 8>]

    The firmware takes the queue from heapless (const-generic API, 0.7
    line): a ring buffer of [N] slots with [head] and [tail] indices stepped
    by [increment]; [enqueue] refuses when the next tail would meet the
    head, so at most [N - 1] words are pending. *)
Module SpscQueue.

Definition N : nat := 8.

Record Queue := mk_queue { head : nat; tail : nat; buffer : list Z }.

Definition new : Queue := mk_queue 0 0 (repeat 0 N).

Definition increment (v : nat) : nat := (v + 1) mod N.

Fixpoint list_set (l : list Z) (i : nat) (x : Z) : list Z :=
  match l, i with
  | [], _ => []
  | _ :: t, O => x :: t
  | y :: t, S i' => y :: list_set t i' x
  end.

Inductive EnqResult := EnqOk | EnqErr (val : Z).

(** [Producer::enqueue] *)
Definition enqueue (q : Queue) (val : Z) : Queue * EnqResult :=
  let next_tail := increment (tail q) in
  if negb (Nat.eqb next_tail (head q)) then
    (mk_queue (head q) next_tail (list_set (buffer q) (tail q) val), EnqOk)
  else (q, EnqErr val).

(** [Consumer::dequeue] *)
Definition dequeue (q : Queue) : Queue * option Z :=
  if Nat.eqb (head q) (tail q) then (q, None)
  else (mk_queue (increment (head q)) (tail q) (buffer q),
        Some (nth (head q) (buffer q) 0)).

Inductive Op := Enq (w : Z) | Deq.
Inductive Out := OEnq (r : EnqResult) | ODeq (o : option Z).

Fixpoint run (q : Queue) (ops : list Op) : list Out :=
  match ops with
  | [] => []
  | Enq w :: t => let (q1, r) := enqueue q w in OEnq r :: run q1 t
  | Deq :: t => let (q1, r) := dequeue q in ODeq r :: run q1 t
  end.

(** A FIFO of bounded capacity over a list, the queue's intended
    behaviour: enqueue refused exactly when [cap] words are pending. *)
Fixpoint list_run (cap : nat) (l : list Z) (ops : list Op) : list Out :=
  match ops with
  | [] => []
  | Enq w :: t =>
      if Nat.ltb (List.length l) cap then OEnq EnqOk :: list_run cap (l ++ [w]) t
      else OEnq (EnqErr w) :: list_run cap l t
  | Deq :: t =>
      match l with
      | [] => ODeq None :: list_run cap l t
      | x :: r => ODeq (Some x) :: list_run cap r t
      end
  end.

(** The words pending in the ring, from [head] to [tail]. *)
Definition contents (q : Queue) : list Z :=
  map (fun i => nth ((head q + i) mod N) (buffer q) 0)
      (seq 0 ((tail q + N - head q) mod N)).

Definition wf (q : Queue) : Prop :=
  (head q < N)%nat /\ (tail q < N)%nat /\ List.length (buffer q) = N.

(** The producer in [exti4_15_interrupt]: [enqueue(data).unwrap()];
    [None] is the panic. *)
Definition producer_enqueue (q : Queue) (w : Z) : option Queue :=
  match enqueue q w with
  | (q1, EnqOk) => Some q1
  | (_, EnqErr _) => None
  end.

End SpscQueue.

(** ** Keyboard path: the PS/2 branch of the clock-edge interrupt
    ([exti4_15_interrupt] in the pico, [exti1_interrupt] in the nucleo), the
    word queue, and the loop of [idle] *)
Module Kb.

(** The two lines [idle] logs for a dequeued word. *)
Inductive Log := KbByte (byte : Z) | BadKb (word : Z).

Definition idle_log (word : Z) : Log :=
  match Ps2.check_word word with
  | Some byte => KbByte byte
  | None => BadKb word
  end.

(** [kb_decoder] and the two ends of the queue, with the log so far. *)
Record KbState := mk_kb { kb_decoder : Ps2.Ps2Decoder; kb_q : SpscQueue.Queue; log : list Log }.

(** A falling clock edge with the data line's level, or one iteration of
    the [idle] loop. *)
Inductive KbEvent := ClkEdge (data_bit : bool) | IdleIter.

Section WithDecoder.

(** The firmware's [Ps2Decoder::add_bit]. *)
Variable add_bit : Ps2.Ps2Decoder -> bool -> Ps2.Ps2Decoder * option Z.

(** [if let Some(data) = kb_decoder.add_bit(data_bit) {
    kb_q_in.enqueue(data).unwrap(); }]; [None] is the panic. *)
Definition ps2_isr (s : KbState) (data_bit : bool) : option KbState :=
  let (d1, o) := add_bit (kb_decoder s) data_bit in
  match o with
  | Some data =>
      match SpscQueue.producer_enqueue (kb_q s) data with
      | Some q1 => Some (mk_kb d1 q1 (log s))
      | None => None
      end
  | None => Some (mk_kb d1 (kb_q s) (log s))
  end.

(** [if let Some(word) = kb_q_out.dequeue() { ... check_word(word) ... }] *)
Definition idle_iter (s : KbState) : KbState :=
  let (q1, o) := SpscQueue.dequeue (kb_q s) in
  match o with
  | Some word => mk_kb (kb_decoder s) q1 (log s ++ [idle_log word])
  | None => mk_kb (kb_decoder s) q1 (log s)
  end.

Definition kb_step (s : KbState) (e : KbEvent) : option KbState :=
  match e with
  | ClkEdge b => ps2_isr s b
  | IdleIter => Some (idle_iter s)
  end.

Fixpoint kb_run (s : KbState) (es : list KbEvent) : option KbState :=
  match es with
  | [] => Some s
  | e :: t => match kb_step s e with Some s1 => kb_run s1 t | None => None end
  end.

End WithDecoder.

(** After [init]: a fresh decoder, an empty queue, nothing logged. *)
Definition kb_init : KbState := mk_kb Ps2.new SpscQueue.new [].

(** The data bits the clock edges sample, in order. *)
Definition clk_bits (es : list KbEvent) : list bool :=
  flat_map (fun e => match e with ClkEdge b => [b] | IdleIter => [] end) es.

(** The words a sequence of [add_bit] results hands off. *)
Definition words (outs : list (option Z)) : list Z :=
  flat_map (fun o => match o with Some w => [w] | None => [] end) outs.

End Kb.

(** ** Decision procedures used by the exhaustive checks *)

Definition opt_Z_eq_dec (a b : option Z) : {a = b} + {a <> b}.
Proof. decide equality. apply Z.eq_dec. Defined.

Definition opt_list_eqb (a b : list (option Z)) : bool :=
  if list_eq_dec opt_Z_eq_dec a b then true else false.

Definition decoder_eqb (a b : Ps2.Ps2Decoder) : bool :=
  (Ps2.bit_mask a =? Ps2.bit_mask b) && (Ps2.collector a =? Ps2.collector b).

(** One 11-bit frame fed to a fresh decoder: the word it hands off and the
    decoder it leaves. *)
Definition frame_run_ok (step : Ps2.Ps2Decoder -> bool -> Ps2.Ps2Decoder * option Z)
    (final : Ps2.Ps2Decoder) (w : list bool) : bool :=
  let (d, outs) := Ps2.feed step Ps2.new w in
  decoder_eqb d final && opt_list_eqb outs (repeat None 10 ++ [Some (bits_value w)]).

(** The frame of scan code 0x01: start 0, data 0x01, parity 0, stop 1
    (word 0x402). *)
Definition frame_0x402 : list bool :=
  [false; true; false; false; false; false; false; false; false; false; true].

(** Power-side runs used below. *)
Definition run_on_then_reset : list Power.Event :=
  [Power.Poll None (Some Power.Rising) None;
   Power.Poll None (Some Power.Falling) None;
   Power.Poll None None (Some Power.Rising)].

Definition run_blink_on_off : list Power.Event :=
  [Power.RunLedPowerBlink;
   Power.Poll None (Some Power.Rising) None;
   Power.RunLedPowerBlink;
   Power.Poll None (Some Power.Falling) None;
   Power.Poll (Some Power.Rising) None None].

(** The invariant of the power outputs: off means DC and reset low;
    starting or on means DC high. *)
Definition power_inv (b : Power.Board) : Prop :=
  (Power.state_dc_power_enabled b = Power.Off ->
     Power.pin_dc_on b = Power.Low /\ Power.pin_sys_reset b = Power.Low) /\
  (Power.state_dc_power_enabled b <> Power.Off -> Power.pin_dc_on b = Power.High).

(** The decoder's own invariant: the mask is one of the eleven bits
    [2^k], [k <= 10], and only bits below it have been collected. *)
Definition dec_inv (d : Ps2.Ps2Decoder) : Prop :=
  exists k : nat, (k <= 10)%nat /\ Ps2.bit_mask d = 2 ^ Z.of_nat k /\
    0 <= Ps2.collector d < 2 ^ Z.of_nat k.

Definition dec_inv_b (d : Ps2.Ps2Decoder) : bool :=
  existsb (fun k => (Ps2.bit_mask d =? 2 ^ Z.of_nat k) && (0 <=? Ps2.collector d) &&
                    (Ps2.collector d <? 2 ^ Z.of_nat k)) (seq 0 11).

Definition word_fits (o : option Z) : bool :=
  match o with Some w => (0 <=? w) && (w <? 2048) | None => true end.

(** [add_bit] from every decoder state satisfying the invariant, with both
    bit values. *)
Definition add_bit_inv_at (k c : nat) : bool :=
  forallb (fun b =>
    let (d1, o) := Ps2.add_bit (Ps2.mk_decoder (2 ^ Z.of_nat k) (Z.of_nat c)) b in
    dec_inv_b d1 && word_fits o) [false; true].

(** The 11-bit word a PS/2 device sends for a byte: start 0, the byte,
    odd parity, stop 1. *)
Definition ps2_frame (d : Z) : Z :=
  1024 + (if Z.even (u8_count_ones d) then 512 else 0) + 2 * d.

(** Its bits in the order they are clocked out, least significant first. *)
Definition ps2_frame_bits (d : Z) : list bool :=
  map (fun i => Z.testbit (ps2_frame d) (Z.of_nat i)) (seq 0 11).

(** [check_word] recovers a byte from its frame. *)
Definition check_word_frame_roundtrip_at (n : nat) : bool :=
  match Ps2.check_word (ps2_frame (Z.of_nat n)) with
  | Some x => x =? Z.of_nat n
  | None => false
  end.

(** An accepted word is the frame of the byte it yields. *)
Definition check_word_unique_at (n : nat) : bool :=
  match Ps2.check_word (Z.of_nat n) with
  | Some d => Z.of_nat n =? ps2_frame d
  | None => true
  end.

(** The clocked bits of a byte's frame read back as the frame. *)
Definition frame_bits_value_at (n : nat) : bool :=
  bits_value (ps2_frame_bits (Z.of_nat n)) =? ps2_frame (Z.of_nat n).

Definition Level_eqb (a b : Power.Level) : bool :=
  match a, b with
  | Power.Low, Power.Low | Power.High, Power.High => true
  | _, _ => false
  end.

(** The power-side invariant, per state: off means DC and reset low with
    the blink task scheduled; starting means DC, LED and reset high; on
    means DC and LED high, and a low reset line has its release pending. *)
Definition power_inv_b (b : Power.Board) : bool :=
  let dc := Power.pin_dc_on b in
  let led := Power.led_power b in
  let rst := Power.pin_sys_reset b in
  match Power.state_dc_power_enabled b with
  | Power.Off => Level_eqb dc Power.Low && Level_eqb rst Power.Low && Power.blink_pending b
  | Power.Starting => Level_eqb dc Power.High && Level_eqb led Power.High &&
                      Level_eqb rst Power.High
  | Power.On => Level_eqb dc Power.High && Level_eqb led Power.High &&
                (Level_eqb rst Power.High || Power.exit_reset_pending b)
  end.

Ltac inv_some :=
  repeat match goal with
  | H : Some _ = Some _ |- _ => injection H as <-
  | H : None = Some _ |- _ => discriminate H
  | H : context [if ?c then _ else _] |- _ => destruct c eqn:?; cbn in H
  end.

(** * Properties *)

(** ** PS/2 decoder *)

Lemma opt_list_eqb_true a b : opt_list_eqb a b = true -> a = b.
Proof.
  unfold opt_list_eqb. destruct (list_eq_dec _ a b); congruence.
Qed.

Lemma decoder_eqb_true a b : decoder_eqb a b = true -> a = b.
Proof.
  destruct a as [m1 c1], b as [m2 c2]; unfold decoder_eqb; simpl.
  intros H. apply andb_prop in H as [H1 H2].
  apply Z.eqb_eq in H1, H2. subst. reflexivity.
Qed.

Lemma all_bits_complete n l : List.length l = n -> In l (all_bits n).
Proof.
  revert l; induction n as [|n IH]; intros [|b l] H; simpl in H; try discriminate.
  - left; reflexivity.
  - injection H as H. simpl. apply in_or_app.
    destruct b; [right | left]; apply in_map; apply IH; exact H.
Qed.

Lemma feed_app step d a b :
  Ps2.feed step d (a ++ b) =
  let (d1, o1) := Ps2.feed step d a in
  let (d2, o2) := Ps2.feed step d1 b in (d2, o1 ++ o2).
Proof.
  revert d; induction a as [|x a IH]; intros d; simpl.
  - destruct (Ps2.feed step d b); reflexivity.
  - destruct (step d x) as [d1 o]. rewrite IH.
    destruct (Ps2.feed step d1 a) as [d2 o1].
    destruct (Ps2.feed step d2 b) as [d3 o2]. reflexivity.
Qed.

Lemma frame_runs_from_all_bits step final :
  forallb (frame_run_ok step final) (all_bits 11) = true ->
  forall w, List.length w = 11%nat ->
  Ps2.feed step Ps2.new w = (final, repeat None 10 ++ [Some (bits_value w)]).
Proof.
  intros Hall w Hw.
  rewrite forallb_forall in Hall.
  specialize (Hall w (all_bits_complete _ _ Hw)).
  unfold frame_run_ok in Hall.
  destruct (Ps2.feed step Ps2.new w) as [d outs].
  apply andb_prop in Hall as [H1 H2].
  apply decoder_eqb_true in H1. apply opt_list_eqb_true in H2. subst. reflexivity.
Qed.

Lemma pico_frames_checked :
  forallb (frame_run_ok Ps2.add_bit Ps2.new) (all_bits 11) = true.
Proof. vm_compute. reflexivity. Qed.

Lemma nucleo_frames_checked :
  forallb (frame_run_ok Ps2.add_bit_nucleo Ps2.reset_nucleo) (all_bits 11) = true.
Proof. vm_compute. reflexivity. Qed.

(** Pico decoder: the 11th bit hands off the word of the 11 bits and
    brings the decoder back to [new]; the bits after it are decoded from
    scratch. *)
Lemma pico_add_bit_word_then_reset (w rest : list bool) :
  List.length w = 11%nat ->
  Ps2.feed Ps2.add_bit Ps2.new (w ++ rest) =
  (fst (Ps2.feed Ps2.add_bit Ps2.new rest),
   repeat None 10 ++ Some (bits_value w) :: snd (Ps2.feed Ps2.add_bit Ps2.new rest)).
Proof.
  intros Hw. rewrite feed_app.
  rewrite (frame_runs_from_all_bits _ _ pico_frames_checked w Hw).
  unfold Ps2.reset.
  change (Ps2.mk_decoder 1 0) with Ps2.new.
  destruct (Ps2.feed Ps2.add_bit Ps2.new rest) as [d2 o2]. simpl.
  rewrite <- ?app_assoc; reflexivity.
Qed.

Lemma nucleo_feed_after_reset rest :
  Ps2.feed Ps2.add_bit_nucleo Ps2.reset_nucleo rest =
  (Ps2.reset_nucleo, repeat None (List.length rest)).
Proof.
  induction rest as [|b rest IH]; [reflexivity|].
  assert (Hs : Ps2.add_bit_nucleo Ps2.reset_nucleo b = (Ps2.reset_nucleo, None))
    by (destruct b; reflexivity).
  cbn [Ps2.feed]. rewrite Hs, IH. reflexivity.
Qed.

(** Nucleo decoder: after the first word its mask is left at 0, and no
    later bit ever completes a word. *)
Lemma nucleo_add_bit_stuck_after_first_word (w rest : list bool) :
  List.length w = 11%nat ->
  Ps2.feed Ps2.add_bit_nucleo Ps2.new (w ++ rest) =
  (Ps2.reset_nucleo,
   repeat None 10 ++ Some (bits_value w) :: repeat None (List.length rest)).
Proof.
  intros Hw. rewrite feed_app.
  rewrite (frame_runs_from_all_bits _ _ nucleo_frames_checked w Hw).
  rewrite nucleo_feed_after_reset. simpl.
  rewrite <- ?app_assoc; reflexivity.
Qed.

Lemma all_words_11_checked :
  forallb (fun n => Ps2.check_word_matches_frame (Z.of_nat n)) (seq 0 2048) = true.
Proof. vm_compute. reflexivity. Qed.

(** C1: on every 11-bit word, [check_word] returns the data bits 1..8
    exactly when the start bit is 0, the stop bit is 1 and the data and
    parity bits hold an odd number of ones; otherwise [None]. *)
Theorem check_word_frame (w : Z) :
  0 <= w < 2 ^ 11 ->
  Ps2.check_word w = if Ps2.frame_ok w then Some (Ps2.frame_data w) else None.
Proof.
  intros Hw.
  pose proof all_words_11_checked as Hall. rewrite forallb_forall in Hall.
  assert (Hin : In (Z.to_nat w) (seq 0 2048)) by (apply in_seq; lia).
  specialize (Hall _ Hin). rewrite Z2Nat.id in Hall by lia.
  unfold Ps2.check_word_matches_frame in Hall.
  destruct (Ps2.check_word w) as [a|], (Ps2.frame_ok w); try discriminate; try reflexivity.
  apply Z.eqb_eq in Hall. subst. reflexivity.
Qed.

Lemma check_word_frame_witness :
  (0 <= 1026 < 2 ^ 11) /\ Ps2.check_word 1026 = Some 1.
Proof.
  split; [lia|].
  rewrite (check_word_frame 1026) by lia. reflexivity.
Defined.

(** C3 (code bug, nucleo): fed two well-formed frames in a row, the pico
    decoder hands off both words, while the nucleo decoder hands off the
    first and then, its [reset] having left [bit_mask] at 0, nothing. *)
Theorem nucleo_decoder_drops_second_word :
  Ps2.feed Ps2.add_bit_nucleo Ps2.new (frame_0x402 ++ frame_0x402) =
    (Ps2.reset_nucleo, repeat None 10 ++ Some 1026 :: repeat None 11) /\
  Ps2.feed Ps2.add_bit Ps2.new (frame_0x402 ++ frame_0x402) =
    (Ps2.new, repeat None 10 ++ Some 1026 :: repeat None 10 ++ [Some 1026]).
Proof. split; vm_compute; reflexivity. Qed.

(** C10: [check_word] only reads the low 11 bits of its argument. *)
Theorem check_word_low_bits (w : Z) :
  Ps2.check_word w = Ps2.check_word (Z.land w 2047).
Proof.
  unfold Ps2.check_word.
  assert (E1 : Z.land (Z.land w 2047) 1 = Z.land w 1)
    by (rewrite <- Z.land_assoc; reflexivity).
  assert (E2 : Z.land (Z.land w 2047) 512 = Z.land w 512)
    by (rewrite <- Z.land_assoc; reflexivity).
  assert (E3 : Z.land (Z.land w 2047) 1024 = Z.land w 1024)
    by (rewrite <- Z.land_assoc; reflexivity).
  assert (E4 : Z.land (Z.shiftr (Z.land w 2047) 1) 255 = Z.land (Z.shiftr w 1) 255)
    by (rewrite Z.shiftr_land, <- Z.land_assoc; reflexivity).
  rewrite E1, E2, E3, E4. reflexivity.
Qed.

(** ** Power sequencer *)

(** C4: the three transitions of the power state machine, and no state
    change and no output for any other (long edge, short edge, state). *)
Theorem dispatch_transitions (l s : option Power.Edge) (st : Power.DcPowerState) :
  (l = None -> s = Some Power.Rising -> st = Power.Off ->
     Power.dispatch l s st =
       (Power.Starting,
        [Power.SetLedPower Power.High; Power.SetDcOn Power.High;
         Power.SetSysReset Power.High])) /\
  (l = None -> s = Some Power.Falling -> st = Power.Starting ->
     Power.dispatch l s st = (Power.On, [])) /\
  (l = Some Power.Rising -> s = None -> st = Power.On ->
     Power.dispatch l s st =
       (Power.Off,
        [Power.SetLedPower Power.Low; Power.SetSysReset Power.Low;
         Power.SetDcOn Power.Low; Power.Spawn Power.LedPowerBlink])) /\
  (~ (l = None /\ s = Some Power.Rising /\ st = Power.Off) ->
   ~ (l = None /\ s = Some Power.Falling /\ st = Power.Starting) ->
   ~ (l = Some Power.Rising /\ s = None /\ st = Power.On) ->
     Power.dispatch l s st = (st, [])).
Proof.
  destruct l as [[|]|], s as [[|]|], st; cbn;
    repeat split; intros; try discriminate; try reflexivity;
    exfalso; match goal with H : ~ _ |- _ => solve [apply H; repeat split] end.
Qed.

Lemma dispatch_transitions_witness :
  Power.dispatch (Some Power.Rising) (Some Power.Rising) Power.On = (Power.On, []).
Proof.
  apply (proj2 (proj2 (proj2
    (dispatch_transitions (Some Power.Rising) (Some Power.Rising) Power.On))));
    intros (H1 & H2 & H3); discriminate.
Defined.

Lemma power_inv_step b e b' :
  power_inv b -> Power.step b e = Some b' -> power_inv b'.
Proof.
  destruct b as [st led dc rst ls bp ep]; unfold power_inv; cbn.
  intros [Hoff Hnoff] Hs.
  destruct st;
    try (specialize (Hoff eq_refl); destruct Hoff as [-> ->]);
    try (specialize (Hnoff ltac:(discriminate)); subst dc);
    (destruct e as [l s r | |];
      [destruct l as [[|]|], s as [[|]|], r as [[|]|] | |]);
    cbn in Hs; inv_some; cbn;
    split; intros; try discriminate; try congruence; auto.
Qed.

Lemma run_reachable es b b' :
  Power.reachable b -> Power.run b es = Some b' -> Power.reachable b'.
Proof.
  revert b; induction es as [|e es IH]; intros b Hr Hrun; cbn in Hrun.
  - injection Hrun as <-. exact Hr.
  - destruct (Power.step b e) as [b1|] eqn:Hs; [|discriminate].
    apply (IH b1); [econstructor; eauto | exact Hrun].
Qed.

(** C7 (as amended): in every reachable state, power off means DC disabled
    and reset held low, and starting or on means DC enabled. *)
Theorem reachable_power_outputs (b : Power.Board) :
  Power.reachable b ->
  (Power.state_dc_power_enabled b = Power.Off ->
     Power.pin_dc_on b = Power.Low /\ Power.pin_sys_reset b = Power.Low) /\
  (Power.state_dc_power_enabled b <> Power.Off -> Power.pin_dc_on b = Power.High).
Proof.
  intros Hr. induction Hr as [|b e b' _ IH Hs].
  - unfold Power.init; cbn. split; [auto | intros H; congruence].
  - exact (power_inv_step b e b' IH Hs).
Qed.

Lemma reachable_power_outputs_witness :
  Power.pin_dc_on (Power.mk_board Power.On Power.High Power.High Power.Low false true true)
    = Power.High /\
  Power.pin_dc_on (Power.mk_board Power.Off Power.Low Power.Low Power.Low true true false)
    = Power.Low /\
  Power.pin_sys_reset (Power.mk_board Power.Off Power.Low Power.Low Power.Low true true false)
    = Power.Low.
Proof.
  assert (Hon : Power.reachable
                  (Power.mk_board Power.On Power.High Power.High Power.Low false true true))
    by (apply (run_reachable run_on_then_reset Power.init); [constructor | reflexivity]).
  assert (Hoff : Power.reachable
                   (Power.mk_board Power.Off Power.Low Power.Low Power.Low true true false))
    by (apply (run_reachable run_blink_on_off Power.init); [constructor | reflexivity]).
  split.
  - apply (proj2 (reachable_power_outputs _ Hon)). discriminate.
  - exact (proj1 (reachable_power_outputs _ Hoff) eq_refl).
Defined.

(** C7 as stated fails: after power-on and a reset press, the state is On
    while the reset line is held low (until [exit_reset] runs). *)
Lemma reset_low_while_on :
  ~ (forall b, Power.reachable b -> Power.state_dc_power_enabled b = Power.On ->
       Power.pin_dc_on b = Power.High /\ Power.pin_sys_reset b = Power.High).
Proof.
  intros H.
  pose (b := Power.mk_board Power.On Power.High Power.High Power.Low false true true).
  assert (Hr : Power.reachable b).
  { apply (run_reachable run_on_then_reset Power.init); [constructor | reflexivity]. }
  destruct (H b Hr eq_refl) as [_ Hrst]. discriminate Hrst.
Qed.

(** C5 (as amended, pico firmware): a rising reset edge seen while On
    pulls reset low and spawns [exit_reset] 250 ms later; seen in any other
    state it changes nothing; [exit_reset] releases the line only when the
    state is still On, and otherwise leaves every pin as it is. *)
Theorem reset_pulse_pico (l s r : option Power.Edge) (st : Power.DcPowerState) :
  (fst (Power.dispatch l s st) = Power.On ->
     Power.button_poll l s (Some Power.Rising) st =
       (Power.On,
        snd (Power.dispatch l s st) ++
          [Power.SetSysReset Power.Low; Power.SpawnAfter Power.ExitReset 250;
           Power.SpawnAfter Power.ButtonPoll 75])) /\
  (fst (Power.dispatch l s st) <> Power.On ->
     Power.button_poll l s r st = Power.button_poll l s None st) /\
  (forall b : Power.Board,
     Power.exit_reset_pending b = true ->
     Power.state_dc_power_enabled b = Power.On ->
     Power.step b Power.RunExitReset =
       Some (Power.set_rst (Power.set_exit_reset_pending b false) Power.High)) /\
  (forall b : Power.Board,
     Power.exit_reset_pending b = true ->
     Power.state_dc_power_enabled b <> Power.On ->
     Power.step b Power.RunExitReset = Some (Power.set_exit_reset_pending b false)).
Proof.
  repeat split.
  - unfold Power.button_poll.
    destruct (Power.dispatch l s st) as [st1 acts]; cbn. intros ->. reflexivity.
  - unfold Power.button_poll.
    destruct (Power.dispatch l s st) as [st1 acts]; cbn. intros Hst.
    destruct r as [[|]|]; cbn; try reflexivity.
    destruct st1; cbn; try reflexivity. congruence.
  - intros [st0 led dc rst ls bp ep] Hp Hst; cbn in *. subst. reflexivity.
  - intros [st0 led dc rst ls bp ep] Hp Hst; cbn in *. subst.
    destruct st0; cbn; try reflexivity. congruence.
Qed.

Lemma reset_pulse_pico_witness :
  Power.button_poll None (Some Power.Falling) (Some Power.Rising) Power.Starting =
    (Power.On, [Power.SetSysReset Power.Low; Power.SpawnAfter Power.ExitReset 250;
                Power.SpawnAfter Power.ButtonPoll 75]).
Proof.
  exact (proj1 (reset_pulse_pico None (Some Power.Falling) (Some Power.Rising)
                  Power.Starting) eq_refl).
Defined.

(** C5 as stated fails on the nucleo firmware: with the power off, a
    falling reset edge pulses the reset line low then high (leaving it
    released), where the same poll without the edge writes nothing. *)
Lemma nucleo_reset_pulse_while_off :
  Power.button_poll_nucleo None None (Some Power.Falling) Power.Off =
    (Power.Off, [Power.SetSysReset Power.Low; Power.SetSysReset Power.High;
                 Power.SpawnAfter Power.ButtonPoll 75]) /\
  Power.button_poll_nucleo None None None Power.Off =
    (Power.Off, [Power.SpawnAfter Power.ButtonPoll 75]).
Proof. split; reflexivity. Qed.



(** C8 (code bug): [led_power_blink] is documented to check whether the
    LED is on or off and set it to the opposite, but it flips its local
    [led_state] and never reads the LED.  The On-to-Off transition drives
    the LED low without updating [led_state]: after a blink, a power-on and
    a power-off, the LED is low while [led_state] is [true], so the
    re-armed blink writes low again and the LED does not toggle. *)
Lemma blink_after_power_off_keeps_led :
  ~ (forall b b', Power.reachable b ->
       Power.state_dc_power_enabled b = Power.Off ->
       Power.step b Power.RunLedPowerBlink = Some b' ->
       Power.led_power b' <> Power.led_power b).
Proof.
  intros H.
  pose (b := Power.mk_board Power.Off Power.Low Power.Low Power.Low true true false).
  assert (Hr : Power.reachable b).
  { apply (run_reachable run_blink_on_off Power.init); [constructor | reflexivity]. }
  exact (H b _ Hr eq_refl eq_refl eq_refl).
Qed.

(** ** SPI register server *)

Lemma as_u8_mod (x : Z) : as_u8 x = x mod 256.
Proof.
  unfold as_u8. change 255 with (Z.ones 8).
  rewrite Z.land_ones by lia. reflexivity.
Qed.

Lemma session_reads_counter (bytes : list Z) (s : Spi.SpiPeripheral) (n : nat) (b : Z) :
  Spi.rx_fifo (Spi.dev s) = [] ->
  0 <= Spi.count s < 256 ->
  nth_error bytes n = Some b ->
  nth_error (Spi.session_reads s bytes) n =
    Some (if (Spi.count s + Z.of_nat (S n)) mod 256 =? 2 then Some b else None).
Proof.
  revert s n; induction bytes as [|x bytes IH]; intros [[en rx tx] c rb] n Hrx Hc Hn;
    cbn [Spi.dev Spi.rx_fifo Spi.count] in Hrx, Hc |- *; subst rx.
  - destruct n; discriminate.
  - cbn [Spi.session_reads Spi.dev Spi.rx_fifo Spi.tx_fifo Spi.spe Spi.count
           Spi.reply_byte app].
    match goal with |- context [Spi.read ?a] =>
      destruct (Spi.read a) as [s1 r] eqn:Hread end.
    assert (Hs1 : Spi.rx_fifo (Spi.dev s1) = [] /\ Spi.count s1 = as_u8 (c + 1) /\
                  r = (if as_u8 (c + 1) =? 2 then Some x else None))
      by (destruct rb; cbn in Hread; injection Hread as <- <-; repeat split; reflexivity).
    destruct Hs1 as (Hrx1 & Hc1 & Hr).
    destruct n as [|n]; cbn [nth_error] in Hn |- *.
    + injection Hn as <-. rewrite Hr, as_u8_mod. reflexivity.
    + rewrite (IH s1 n Hrx1);
        [| rewrite Hc1, as_u8_mod; apply Z.mod_pos_bound; lia | exact Hn].
      rewrite Hc1, as_u8_mod, Zplus_mod_idemp_l.
      replace (c + 1 + Z.of_nat (S n)) with (c + Z.of_nat (S (S n))) by lia.
      reflexivity.
Qed.

(** C9: [enable] zeroes the counter, drops a pending reply and preloads
    0xFF; then, of the bytes received one at a time in the session, the
    n-th (counting from 1) is returned by [read] as a command exactly when
    n = 2 modulo 256, and every other read returns [None]. *)
Theorem session_command_is_second_byte (s : Spi.SpiPeripheral) (bytes : list Z)
    (n : nat) (b : Z) :
  Spi.rx_fifo (Spi.dev s) = [] ->
  nth_error bytes n = Some b ->
  Spi.count (Spi.enable s) = 0 /\
  Spi.reply_byte (Spi.enable s) = None /\
  Spi.tx_fifo (Spi.dev (Spi.enable s)) = Spi.tx_fifo (Spi.dev s) ++ [255] /\
  nth_error (Spi.session_reads (Spi.enable s) bytes) n =
    Some (if Z.of_nat (S n) mod 256 =? 2 then Some b else None).
Proof.
  intros Hrx Hn. repeat split.
  rewrite (session_reads_counter bytes (Spi.enable s) n b).
  - reflexivity.
  - destruct s as [[en rx tx] c rb]; cbn in *; exact Hrx.
  - cbn; lia.
  - exact Hn.
Qed.

Lemma session_command_is_second_byte_witness :
  Spi.rx_fifo (Spi.dev Spi.spi_new) = [] /\
  nth_error (Spi.session_reads (Spi.enable Spi.spi_new) [7; 42; 9]) 1 = Some (Some 42).
Proof.
  split; [reflexivity|].
  exact (proj2 (proj2 (proj2
    (session_command_is_second_byte Spi.spi_new [7; 42; 9] 1 42 eq_refl eq_refl)))).
Defined.



(** ** Keyboard word queue *)

Lemma lt8_cases (n : nat) :
  (n < 8)%nat ->
  n = 0%nat \/ n = 1%nat \/ n = 2%nat \/ n = 3%nat \/
  n = 4%nat \/ n = 5%nat \/ n = 6%nat \/ n = 7%nat.
Proof. intros; lia. Qed.

Ltac ring_cases h t Hh Ht :=
  destruct (lt8_cases h Hh) as [->|[->|[->|[->|[->|[->|[->| ->]]]]]]];
  destruct (lt8_cases t Ht) as [->|[->|[->|[->|[->|[->|[->| ->]]]]]]].

Lemma enqueue_spec (q : SpscQueue.Queue) (w : Z) :
  SpscQueue.wf q ->
  SpscQueue.wf (fst (SpscQueue.enqueue q w)) /\
  (if Nat.ltb (List.length (SpscQueue.contents q)) 7
   then snd (SpscQueue.enqueue q w) = SpscQueue.EnqOk /\
        SpscQueue.contents (fst (SpscQueue.enqueue q w)) = SpscQueue.contents q ++ [w]
   else SpscQueue.enqueue q w = (q, SpscQueue.EnqErr w)).
Proof.
  destruct q as [h t buf]; unfold SpscQueue.wf; cbn [SpscQueue.head SpscQueue.tail SpscQueue.buffer].
  intros (Hh & Ht & Hb).
  destruct buf as [|b0 [|b1 [|b2 [|b3 [|b4 [|b5 [|b6 [|b7 [|b8 buf]]]]]]]]];
    cbn in Hb; try discriminate.
  ring_cases h t Hh Ht; cbn; repeat split; try lia; reflexivity.
Qed.

Lemma dequeue_spec (q : SpscQueue.Queue) :
  SpscQueue.wf q ->
  SpscQueue.wf (fst (SpscQueue.dequeue q)) /\
  match SpscQueue.contents q with
  | [] => SpscQueue.dequeue q = (q, None)
  | x :: l => snd (SpscQueue.dequeue q) = Some x /\
              SpscQueue.contents (fst (SpscQueue.dequeue q)) = l
  end.
Proof.
  destruct q as [h t buf]; unfold SpscQueue.wf; cbn [SpscQueue.head SpscQueue.tail SpscQueue.buffer].
  intros (Hh & Ht & Hb).
  destruct buf as [|b0 [|b1 [|b2 [|b3 [|b4 [|b5 [|b6 [|b7 [|b8 buf]]]]]]]]];
    cbn in Hb; try discriminate.
  ring_cases h t Hh Ht; cbn; repeat split; try lia; reflexivity.
Qed.

Lemma queue_run_refines (ops : list SpscQueue.Op) (q : SpscQueue.Queue) :
  SpscQueue.wf q ->
  SpscQueue.run q ops = SpscQueue.list_run 7 (SpscQueue.contents q) ops.
Proof.
  revert q; induction ops as [|[w|] ops IH]; intros q Hq; [reflexivity| |].
  - destruct (enqueue_spec q w Hq) as [Hwf Hspec].
    cbn [SpscQueue.run SpscQueue.list_run].
    destruct (SpscQueue.enqueue q w) as [q1 r] eqn:E; cbn [fst] in Hwf.
    destruct (Nat.ltb (List.length (SpscQueue.contents q)) 7).
    + destruct Hspec as [Hr Hc]; cbn [fst snd] in Hr, Hc; subst r.
      rewrite <- Hc. f_equal. apply IH; exact Hwf.
    + injection Hspec as -> ->. f_equal. apply IH; exact Hq.
  - destruct (dequeue_spec q Hq) as [Hwf Hspec].
    cbn [SpscQueue.run SpscQueue.list_run].
    destruct (SpscQueue.dequeue q) as [q1 r] eqn:E; cbn [fst] in Hwf.
    destruct (SpscQueue.contents q) as [|x l] eqn:Hcq.
    + injection Hspec as -> ->. f_equal. rewrite <- Hcq. apply IH; exact Hq.
    + destruct Hspec as [Hr Hc]; cbn [fst snd] in Hr, Hc; subst r l.
      f_equal. apply IH; exact Hwf.
Qed.

(** C6 (as amended): from [Queue::new()], every sequence of enqueues and
    dequeues behaves as a FIFO list of capacity 7 (N - 1 for N = 8):
    words come out in the order they went in, an enqueue with 7 words
    pending is refused with [Err] and leaves the queue as it is, and a
    dequeue of the empty queue returns [None]; a refused enqueue makes the
    producer's [unwrap] panic. *)
Theorem keyboard_queue_capacity_7 :
  (forall ops, SpscQueue.run SpscQueue.new ops = SpscQueue.list_run 7 [] ops) /\
  (forall q w, SpscQueue.wf q -> List.length (SpscQueue.contents q) = 7%nat ->
     SpscQueue.producer_enqueue q w = None).
Proof.
  split.
  - intros ops. apply queue_run_refines.
    unfold SpscQueue.wf, SpscQueue.new, SpscQueue.N; cbn; lia.
  - intros q w Hq Hlen. destruct (enqueue_spec q w Hq) as [_ Hspec].
    rewrite Hlen in Hspec. cbn in Hspec.
    unfold SpscQueue.producer_enqueue. rewrite Hspec. reflexivity.
Qed.

Lemma keyboard_queue_capacity_7_witness :
  SpscQueue.wf (SpscQueue.mk_queue 0 7 [1; 2; 3; 4; 5; 6; 7; 0]) /\
  SpscQueue.producer_enqueue (SpscQueue.mk_queue 0 7 [1; 2; 3; 4; 5; 6; 7; 0]) 8 = None.
Proof.
  assert (Hwf : SpscQueue.wf (SpscQueue.mk_queue 0 7 [1; 2; 3; 4; 5; 6; 7; 0]))
    by (unfold SpscQueue.wf, SpscQueue.N; cbn; lia).
  split; [exact Hwf|].
  exact (proj2 keyboard_queue_capacity_7 _ 8 Hwf eq_refl).
Defined.

(** C6 as stated fails: the 8th enqueue into a fresh queue is refused,
    where a queue of capacity 8 would accept it. *)
Lemma eighth_enqueue_refused :
  SpscQueue.run SpscQueue.new (map SpscQueue.Enq [1; 2; 3; 4; 5; 6; 7; 8]) =
    repeat (SpscQueue.OEnq SpscQueue.EnqOk) 7 ++ [SpscQueue.OEnq (SpscQueue.EnqErr 8)] /\
  SpscQueue.list_run 8 [] (map SpscQueue.Enq [1; 2; 3; 4; 5; 6; 7; 8]) =
    repeat (SpscQueue.OEnq SpscQueue.EnqOk) 8.
Proof. split; vm_compute; reflexivity. Qed.

(** * Further properties of the firmware *)

(** ** PS/2 decoder: invariant and framing *)

Lemma forallb_seq (f : nat -> bool) (n k : nat) :
  forallb f (seq 0 n) = true -> (k < n)%nat -> f k = true.
Proof.
  intros H Hk. rewrite forallb_forall in H. apply H, in_seq. lia.
Qed.

Lemma dec_inv_b_spec d : dec_inv_b d = true -> dec_inv d.
Proof.
  unfold dec_inv_b, dec_inv. intros H.
  apply existsb_exists in H as [k [Hin Hk]].
  apply in_seq in Hin.
  apply andb_prop in Hk as [Hk Hlt]. apply andb_prop in Hk as [Hm Hge].
  apply Z.eqb_eq in Hm. apply Z.leb_le in Hge. apply Z.ltb_lt in Hlt.
  exists k. repeat split; lia.
Qed.

Lemma add_bit_inv_checked_true :
  forallb (fun k => forallb (add_bit_inv_at k) (seq 0 (2 ^ k))) (seq 0 11) = true.
Proof. vm_compute. reflexivity. Qed.

Lemma add_bit_inv d b :
  dec_inv d -> dec_inv (fst (Ps2.add_bit d b)) /\ word_fits (snd (Ps2.add_bit d b)) = true.
Proof.
  intros (k & Hk & Hm & Hc). destruct d as [m c]; cbn in Hm, Hc; subst m.
  assert (Hpow : Z.of_nat (2 ^ k) = 2 ^ Z.of_nat k) by (rewrite Nat2Z.inj_pow; reflexivity).
  pose proof (forallb_seq _ 11 k add_bit_inv_checked_true ltac:(lia)) as Hchk.
  cbv beta in Hchk.
  pose proof (forallb_seq _ (2 ^ k) (Z.to_nat c) Hchk ltac:(lia)) as Hc1.
  unfold add_bit_inv_at in Hc1. rewrite Z2Nat.id in Hc1 by lia.
  assert (Hb : forall (g : bool -> bool), forallb g [false; true] = true -> g b = true)
    by (intros g Hg; cbn in Hg;
        destruct b, (g false) eqn:?, (g true) eqn:?; cbn in Hg; congruence).
  apply Hb in Hc1. clear Hb Hchk.
  destruct (Ps2.add_bit (Ps2.mk_decoder (2 ^ Z.of_nat k) c) b) as [d1 o].
  apply andb_prop in Hc1 as [H1 H2]. split; [apply dec_inv_b_spec|]; assumption.
Qed.

Lemma feed_inv bits d :
  dec_inv d ->
  dec_inv (fst (Ps2.feed Ps2.add_bit d bits)) /\
  forallb word_fits (snd (Ps2.feed Ps2.add_bit d bits)) = true.
Proof.
  revert d; induction bits as [|b bits IH]; intros d Hd; [split; auto|].
  cbn [Ps2.feed].
  pose proof (add_bit_inv d b Hd) as [Hd1 Hw].
  destruct (Ps2.add_bit d b) as [d1 o]; cbn in Hd1, Hw.
  specialize (IH d1 Hd1).
  destruct (Ps2.feed Ps2.add_bit d1 bits) as [d2 os]; cbn in *.
  rewrite Hw. split; tauto.
Qed.

Lemma dec_inv_new : dec_inv Ps2.new.
Proof. exists 0%nat. cbn. lia. Qed.

(** Pico [add_bit], fed any bit stream from [Ps2Decoder::new]: the decoder
    always holds a single mask bit [2^k] with [k <= 10] and only collected
    bits below it, and every word it hands off fits in 11 bits. *)
Theorem pico_decoder_invariant (bits : list bool) :
  dec_inv (fst (Ps2.feed Ps2.add_bit Ps2.new bits)) /\
  (forall w, In (Some w) (snd (Ps2.feed Ps2.add_bit Ps2.new bits)) -> 0 <= w < 2048).
Proof.
  destruct (feed_inv bits Ps2.new dec_inv_new) as [Hd Hw]. split; [exact Hd|].
  intros w Hin. rewrite forallb_forall in Hw. specialize (Hw _ Hin).
  cbn in Hw. apply andb_prop in Hw as [H1 H2].
  apply Z.leb_le in H1. apply Z.ltb_lt in H2. lia.
Qed.

Lemma pico_decoder_invariant_witness : 0 <= 1026 < 2048.
Proof.
  apply (proj2 (pico_decoder_invariant frame_0x402) 1026).
  vm_compute. do 10 right. left. reflexivity.
Defined.

Lemma feed_frames (frames : list (list bool)) :
  Forall (fun f => List.length f = 11%nat) frames ->
  Ps2.feed Ps2.add_bit Ps2.new (List.concat frames) =
    (Ps2.new, flat_map (fun f => repeat None 10 ++ [Some (bits_value f)]) frames).
Proof.
  induction frames as [|f frames IH]; intros Hall; [reflexivity|].
  inversion Hall as [|? ? Hf Hrest]; subst.
  cbn [List.concat flat_map]. rewrite pico_add_bit_word_then_reset by exact Hf.
  rewrite (IH Hrest). cbn [fst snd]. rewrite <- app_assoc. reflexivity.
Qed.

(** Pico [add_bit] splits any stream of whole 11-bit frames, fed from a
    fresh decoder, into one word per frame (the frame's bits read least
    significant first), handed off on the frame's last bit, and ends in the
    fresh state again. *)
Theorem pico_decoder_frames (frames : list (list bool)) :
  Forall (fun f => List.length f = 11%nat) frames ->
  Ps2.feed Ps2.add_bit Ps2.new (List.concat frames) =
    (Ps2.new, flat_map (fun f => repeat None 10 ++ [Some (bits_value f)]) frames).
Proof. exact (feed_frames frames). Qed.

Lemma pico_decoder_frames_witness :
  Ps2.feed Ps2.add_bit Ps2.new (List.concat [frame_0x402; frame_0x402]) =
    (Ps2.new, repeat None 10 ++ [Some 1026] ++ repeat None 10 ++ [Some 1026]).
Proof.
  rewrite (pico_decoder_frames [frame_0x402; frame_0x402]) by
    (repeat constructor).
  reflexivity.
Defined.


Lemma check_word_frame_roundtrip_true :
  forallb check_word_frame_roundtrip_at (seq 0 256) = true.
Proof. vm_compute. reflexivity. Qed.

Lemma check_word_unique_true : forallb check_word_unique_at (seq 0 2048) = true.
Proof. vm_compute. reflexivity. Qed.

Lemma frame_bits_value_true : forallb frame_bits_value_at (seq 0 256) = true.
Proof. vm_compute. reflexivity. Qed.

Lemma check_word_ps2_frame (d : Z) :
  0 <= d < 256 -> Ps2.check_word (ps2_frame d) = Some d.
Proof.
  intros Hd.
  pose proof (forallb_seq _ 256 (Z.to_nat d) check_word_frame_roundtrip_true
    ltac:(lia)) as H.
  unfold check_word_frame_roundtrip_at in H. rewrite Z2Nat.id in H by lia.
  destruct (Ps2.check_word (ps2_frame d)) as [x|]; [|discriminate].
  apply Z.eqb_eq in H. subst. reflexivity.
Qed.

Lemma ps2_frame_bits_value (d : Z) :
  0 <= d < 256 -> bits_value (ps2_frame_bits d) = ps2_frame d.
Proof.
  intros Hd.
  pose proof (forallb_seq _ 256 (Z.to_nat d) frame_bits_value_true ltac:(lia)) as H.
  unfold frame_bits_value_at in H. rewrite Z2Nat.id in H by lia. apply Z.eqb_eq in H. exact H.
Qed.

(** Round trip: [check_word] accepts the frame a PS/2 device sends for any
    byte (start 0, the byte, odd parity, stop 1) and returns that byte. *)
Theorem check_word_accepts_frame (d : Z) :
  0 <= d < 256 -> Ps2.check_word (ps2_frame d) = Some d.
Proof. exact (check_word_ps2_frame d). Qed.

Lemma check_word_accepts_frame_witness :
  Ps2.check_word (ps2_frame 28) = Some 28.
Proof. apply check_word_accepts_frame. lia. Defined.

(** Conversely, an 11-bit word [check_word] accepts is exactly the frame of
    the byte it returns: no other word decodes to that byte. *)
Theorem check_word_accepted_is_frame (w d : Z) :
  0 <= w < 2048 -> Ps2.check_word w = Some d -> w = ps2_frame d.
Proof.
  intros Hw Hc.
  pose proof (forallb_seq _ 2048 (Z.to_nat w) check_word_unique_true ltac:(lia)) as H.
  unfold check_word_unique_at in H. rewrite Z2Nat.id in H by lia. rewrite Hc in H.
  apply Z.eqb_eq in H. exact H.
Qed.

Lemma check_word_accepted_is_frame_witness : 1026 = ps2_frame 1.
Proof. apply check_word_accepted_is_frame; [lia | reflexivity]. Defined.

(** ** Keyboard path: interrupt, queue and [idle] *)

Lemma contents_length_lt (q : SpscQueue.Queue) :
  (List.length (SpscQueue.contents q) < 8)%nat.
Proof.
  unfold SpscQueue.contents. rewrite length_map, length_seq.
  apply Nat.mod_upper_bound. unfold SpscQueue.N. lia.
Qed.

Lemma producer_enqueue_spec (q : SpscQueue.Queue) (w : Z) :
  SpscQueue.wf q ->
  match SpscQueue.producer_enqueue q w with
  | Some q1 => SpscQueue.wf q1 /\ SpscQueue.contents q1 = SpscQueue.contents q ++ [w]
  | None => List.length (SpscQueue.contents q) = 7%nat
  end.
Proof.
  intros Hq. destruct (enqueue_spec q w Hq) as [Hwf Hspec].
  pose proof (contents_length_lt q) as Hlt.
  unfold SpscQueue.producer_enqueue.
  destruct (Nat.ltb (List.length (SpscQueue.contents q)) 7) eqn:Hl.
  - destruct Hspec as [Hok Hc].
    destruct (SpscQueue.enqueue q w) as [q1 r]; cbn in *. subst r. auto.
  - rewrite Hspec. apply Nat.ltb_ge in Hl. lia.
Qed.

Lemma words_app a b : Kb.words (a ++ b) = Kb.words a ++ Kb.words b.
Proof. unfold Kb.words. apply flat_map_app. Qed.

Lemma kb_run_inv step es s s' :
  SpscQueue.wf (Kb.kb_q s) ->
  Kb.kb_run step s es = Some s' ->
  SpscQueue.wf (Kb.kb_q s') /\
  Kb.kb_decoder s' = fst (Ps2.feed step (Kb.kb_decoder s) (Kb.clk_bits es)) /\
  Kb.log s ++ map Kb.idle_log (SpscQueue.contents (Kb.kb_q s) ++
                  Kb.words (snd (Ps2.feed step (Kb.kb_decoder s) (Kb.clk_bits es)))) =
  Kb.log s' ++ map Kb.idle_log (SpscQueue.contents (Kb.kb_q s')).
Proof.
  revert s; induction es as [|[b|] es IH]; intros [d q lg] Hq Hrun; cbn in Hq.
  - cbn in Hrun. injection Hrun as <-. cbn. rewrite app_nil_r. auto.
  - cbn [Kb.kb_run Kb.kb_step] in Hrun. unfold Kb.ps2_isr in Hrun.
    cbn [Kb.kb_decoder Kb.kb_q Kb.log] in Hrun.
    cbn [Kb.clk_bits flat_map app Ps2.feed Kb.kb_decoder Kb.kb_q Kb.log].
    change (flat_map _ es) with (Kb.clk_bits es).
    destruct (step d b) as [d1 [w|]].
    + pose proof (producer_enqueue_spec q w Hq) as Hpe.
      destruct (SpscQueue.producer_enqueue q w) as [q1|]; [|simpl in Hrun; discriminate Hrun].
      destruct Hpe as [Hq1 Hc].
      destruct (IH (Kb.mk_kb d1 q1 lg) Hq1 Hrun) as (Hwf & Hdec & Hlog);
        cbn [Kb.kb_decoder Kb.kb_q Kb.log] in Hdec, Hlog.
      destruct (Ps2.feed step d1 (Kb.clk_bits es)) as [d2 os]; cbn [fst snd] in *.
      change (Kb.words (Some w :: os)) with (w :: Kb.words os).
      split; [auto|]; split; [auto|]. rewrite <- Hlog, Hc, <- app_assoc. reflexivity.
    + destruct (IH (Kb.mk_kb d1 q lg) Hq Hrun) as (Hwf & Hdec & Hlog);
        cbn [Kb.kb_decoder Kb.kb_q Kb.log] in Hdec, Hlog.
      destruct (Ps2.feed step d1 (Kb.clk_bits es)) as [d2 os]; cbn [fst snd] in *.
      change (Kb.words (None :: os)) with (Kb.words os).
      split; [auto|]; split; [auto|]. exact Hlog.
  - cbn [Kb.kb_run Kb.kb_step] in Hrun. unfold Kb.idle_iter in Hrun.
    cbn [Kb.kb_decoder Kb.kb_q Kb.log] in Hrun.
    cbn [Kb.clk_bits flat_map app Kb.kb_decoder Kb.kb_q Kb.log].
    change (flat_map _ es) with (Kb.clk_bits es).
    destruct (dequeue_spec q Hq) as [Hwf1 Hspec].
    destruct (SpscQueue.dequeue q) as [q1 o] eqn:Hdq; cbn in Hwf1.
    destruct (SpscQueue.contents q) as [|x l] eqn:Hc.
    + injection Hspec as -> ->.
      pose proof (IH (Kb.mk_kb d q lg) Hq Hrun) as H.
      cbn [Kb.kb_decoder Kb.kb_q Kb.log] in H. rewrite Hc in H. exact H.
    + destruct Hspec as [Ho Hc1]; cbn [fst snd] in Ho, Hc1; subst o.
      destruct (IH (Kb.mk_kb d q1 (lg ++ [Kb.idle_log x])) Hwf1 Hrun) as (Hwf & Hdec & Hlog);
        cbn [Kb.kb_decoder Kb.kb_q Kb.log] in Hdec, Hlog.
      split; [auto|]; split; [auto|]. rewrite <- Hlog, Hc1, <- app_assoc. reflexivity.
Qed.

Lemma contents_new : SpscQueue.contents SpscQueue.new = [].
Proof. reflexivity. Qed.

Lemma wf_new : SpscQueue.wf SpscQueue.new.
Proof. unfold SpscQueue.wf, SpscQueue.new, SpscQueue.N; cbn; lia. Qed.

(** Keyboard path, for either firmware's [add_bit] and any interleaving of
    clock edges and [idle] iterations that does not panic: the log [idle]
    has written, followed by what it would log for the words still queued,
    is what it logs for the words the decoder handed off, in order; no word
    is lost, duplicated or reordered between the interrupt and [idle]. *)
Theorem keyboard_path_fifo add_bit es s' :
  Kb.kb_run add_bit Kb.kb_init es = Some s' ->
  Kb.log s' ++ map Kb.idle_log (SpscQueue.contents (Kb.kb_q s')) =
    map Kb.idle_log (Kb.words (snd (Ps2.feed add_bit Ps2.new (Kb.clk_bits es)))) /\
  Kb.kb_decoder s' = fst (Ps2.feed add_bit Ps2.new (Kb.clk_bits es)).
Proof.
  intros Hrun. destruct (kb_run_inv add_bit es Kb.kb_init s' wf_new Hrun)
    as (_ & Hdec & Hlog).
  cbn [Kb.kb_init Kb.log Kb.kb_q Kb.kb_decoder] in Hlog, Hdec.
  rewrite contents_new in Hlog. cbn in Hlog. auto.
Qed.

Lemma keyboard_path_fifo_witness :
  [Kb.KbByte 1] ++ map Kb.idle_log (SpscQueue.contents (SpscQueue.mk_queue 1 1 [1026; 0; 0; 0; 0; 0; 0; 0])) =
    map Kb.idle_log (Kb.words (snd (Ps2.feed Ps2.add_bit Ps2.new
      (Kb.clk_bits (map Kb.ClkEdge frame_0x402 ++ [Kb.IdleIter]))))).
Proof.
  exact (proj1 (keyboard_path_fifo Ps2.add_bit (map Kb.ClkEdge frame_0x402 ++ [Kb.IdleIter])
    (Kb.mk_kb Ps2.new (SpscQueue.mk_queue 1 1 [1026; 0; 0; 0; 0; 0; 0; 0]) [Kb.KbByte 1])
    ltac:(vm_compute; reflexivity))).
Defined.

(** The PS/2 branch of the clock-edge interrupt panics exactly when the
    edge completes a word while 7 words are already queued (the
    [enqueue(data).unwrap()] on a full queue); otherwise it returns. *)
Theorem ps2_isr_panics_iff add_bit s b :
  SpscQueue.wf (Kb.kb_q s) ->
  (Kb.ps2_isr add_bit s b = None <->
   (exists w, snd (add_bit (Kb.kb_decoder s) b) = Some w) /\
   List.length (SpscQueue.contents (Kb.kb_q s)) = 7%nat).
Proof.
  intros Hq. unfold Kb.ps2_isr.
  destruct (add_bit (Kb.kb_decoder s) b) as [d1 [w|]]; cbn [snd].
  - pose proof (producer_enqueue_spec _ w Hq) as H.
    destruct (SpscQueue.producer_enqueue (Kb.kb_q s) w) as [q1|].
    + destruct H as [_ Hc]. split; [discriminate|]. intros [_ Hlen].
      pose proof (contents_length_lt q1) as Hlt.
      rewrite Hc, length_app, Hlen in Hlt. cbn in Hlt. lia.
    + split; [intros _; split; [exists w; reflexivity | exact H] | reflexivity].
  - split; [discriminate | intros [[w Hw] _]; discriminate].
Qed.

Lemma ps2_isr_panics_iff_witness :
  Kb.ps2_isr Ps2.add_bit
    (Kb.mk_kb (Ps2.mk_decoder 1024 0) (SpscQueue.mk_queue 0 7 [1; 2; 3; 4; 5; 6; 7; 0]) [])
    true = None.
Proof.
  apply (proj2 (ps2_isr_panics_iff Ps2.add_bit
    (Kb.mk_kb (Ps2.mk_decoder 1024 0) (SpscQueue.mk_queue 0 7 [1; 2; 3; 4; 5; 6; 7; 0]) [])
    true ltac:(unfold SpscQueue.wf, SpscQueue.N; cbn; lia))).
  split; [exists 1024; reflexivity | reflexivity].
Defined.

Lemma words_frames (frames : list (list bool)) :
  Kb.words (flat_map (fun f => repeat None 10 ++ [Some (bits_value f)]) frames) =
    map bits_value frames.
Proof.
  induction frames as [|f frames IH]; [reflexivity|].
  cbn [flat_map map]. rewrite words_app, IH. reflexivity.
Qed.

Lemma ps2_frame_bits_length d : List.length (ps2_frame_bits d) = 11%nat.
Proof. unfold ps2_frame_bits. rewrite length_map, length_seq. reflexivity. Qed.

(** End to end (pico): when a keyboard sends the bytes [ds] as PS/2 frames,
    whatever the interleaving of clock edges and [idle] iterations, as long
    as the interrupt does not panic, [idle] logs exactly those bytes as
    "KB" lines in order, once the words still queued are dequeued. *)
Theorem keyboard_bytes_logged es ds s' :
  Forall (fun d => 0 <= d < 256) ds ->
  Kb.clk_bits es = List.concat (map ps2_frame_bits ds) ->
  Kb.kb_run Ps2.add_bit Kb.kb_init es = Some s' ->
  Kb.log s' ++ map Kb.idle_log (SpscQueue.contents (Kb.kb_q s')) = map Kb.KbByte ds.
Proof.
  intros Hds Hclk Hrun.
  destruct (kb_run_inv Ps2.add_bit es Kb.kb_init s' wf_new Hrun) as (_ & _ & Hlog).
  cbn [Kb.kb_init Kb.log Kb.kb_q Kb.kb_decoder] in Hlog.
  rewrite contents_new in Hlog. cbn [app] in Hlog.
  rewrite <- Hlog, Hclk, feed_frames.
  - cbn [snd]. rewrite words_frames, !map_map.
    clear Hclk Hrun Hlog. induction Hds as [|d ds Hd _ IH]; [reflexivity|].
    cbn [map]. rewrite IH. f_equal.
    unfold Kb.idle_log. rewrite ps2_frame_bits_value, check_word_ps2_frame by exact Hd.
    reflexivity.
  - apply Forall_forall. intros f Hf. apply in_map_iff in Hf as [d [<- _]].
    apply ps2_frame_bits_length.
Qed.

Lemma keyboard_bytes_logged_witness :
  [Kb.KbByte 28] ++
    map Kb.idle_log (SpscQueue.contents (SpscQueue.mk_queue 1 1 [1080; 0; 0; 0; 0; 0; 0; 0])) =
  map Kb.KbByte [28].
Proof.
  apply (keyboard_bytes_logged (map Kb.ClkEdge (ps2_frame_bits 28) ++ [Kb.IdleIter]) [28]
    (Kb.mk_kb Ps2.new (SpscQueue.mk_queue 1 1 [1080; 0; 0; 0; 0; 0; 0; 0]) [Kb.KbByte 28])).
  - constructor; [lia | constructor].
  - vm_compute. reflexivity.
  - vm_compute. reflexivity.
Defined.

(** ** SPI register server *)

(** The loop in [SpiPeripheral::new] that is to empty the receive register
    stops after the first byte: that [read] brings the counter to 1 and
    returns [None].  Any further bytes stay in the RX FIFO, and the counter
    is left at 1 ([enable] later resets it). *)
Theorem spi_new_drains_one_byte (rx tx : list Z) (fuel : nat) :
  Spi.drain (S fuel) (Spi.new_before_drain rx tx) =
    Spi.mk_spi (Spi.mk_dev false (tl rx) tx) (match rx with [] => 0 | _ => 1 end) None.
Proof. destruct rx; reflexivity. Qed.

Lemma bus_run_app fw s a b :
  Spi.bus_run fw s (a ++ b) =
  let (s1, o1) := Spi.bus_run fw s a in
  let (s2, o2) := Spi.bus_run fw s1 b in (s2, o1 ++ o2).
Proof.
  revert s; induction a as [|e a IH]; intros s; cbn [app Spi.bus_run].
  - destruct (Spi.bus_run fw s b); reflexivity.
  - destruct (Spi.bus_step fw s e) as [s1 o1]. rewrite IH.
    destruct (Spi.bus_run fw s1 a) as [s2 o2].
    destruct (Spi.bus_run fw s2 b) as [s3 o3].
    rewrite app_assoc. reflexivity.
Qed.

Lemma bus_run_underruns fw (c : Z) (rest : list Z) :
  2 <= c -> c + Z.of_nat (List.length rest) <= 255 ->
  Spi.bus_run fw (Spi.mk_spi (Spi.mk_dev true [] []) c None) (map Spi.Exchange rest) =
    (Spi.mk_spi (Spi.mk_dev true [] []) (c + Z.of_nat (List.length rest)) None,
     repeat None (List.length rest)).
Proof.
  revert c; induction rest as [|h rest IH]; intros c H1 H2.
  - cbn. rewrite Z.add_0_r. reflexivity.
  - cbn [List.length] in H2. rewrite Nat2Z.inj_succ in H2.
    assert (Hstep : Spi.bus_step fw (Spi.mk_spi (Spi.mk_dev true [] []) c None) (Spi.Exchange h) =
                    (Spi.mk_spi (Spi.mk_dev true [] []) (c + 1) None, [None])).
    { unfold Spi.bus_step, Spi.spi1_interrupt. cbn -[as_u8].
      rewrite as_u8_mod, Z.mod_small by lia.
      replace (c + 1 =? 2) with false by (symmetry; apply Z.eqb_neq; lia).
      reflexivity. }
    cbn [map Spi.bus_run]. rewrite Hstep, IH by lia.
    cbn [List.length repeat app].
    replace (c + Z.of_nat (S (List.length rest))) with (c + 1 + Z.of_nat (List.length rest))
      by lia.
    reflexivity.
Qed.

(** A chip-select session of 5 to 255 exchanges, started with empty FIFOs
    (whatever the counter, pending answer and SPE were): the 0xFF preload,
    two underruns, the answer for the second byte, 0xFF, and then an
    underrun on every further exchange; no second command is taken. *)
Theorem spi_long_session fw e c r (p o x y z : Z) (rest : list Z) :
  (List.length rest <= 250)%nat ->
  Spi.bus_run fw (Spi.mk_spi (Spi.mk_dev e [] []) c r)
    (Spi.CsLow :: map Spi.Exchange (p :: o :: x :: y :: z :: rest)) =
  (Spi.mk_spi (Spi.mk_dev true [] []) (5 + Z.of_nat (List.length rest)) None,
   [Some 255; None; None; Some (Spi.lookup fw o); Some 255] ++ repeat None (List.length rest)).
Proof.
  intros Hlen.
  change (Spi.CsLow :: map Spi.Exchange (p :: o :: x :: y :: z :: rest)) with
    ([Spi.CsLow; Spi.Exchange p; Spi.Exchange o; Spi.Exchange x; Spi.Exchange y;
      Spi.Exchange z] ++ map Spi.Exchange rest).
  rewrite bus_run_app.
  change (Spi.bus_run fw (Spi.mk_spi (Spi.mk_dev e [] []) c r)
            [Spi.CsLow; Spi.Exchange p; Spi.Exchange o; Spi.Exchange x; Spi.Exchange y;
             Spi.Exchange z])
    with (Spi.mk_spi (Spi.mk_dev true [] []) 5 None,
          [Some 255; None; None; Some (Spi.lookup fw o); Some 255]).
  cbv beta iota. rewrite bus_run_underruns by lia. reflexivity.
Qed.

Lemma spi_long_session_witness :
  Spi.bus_run Spi.NEO Spi.spi_new
    (Spi.CsLow :: map Spi.Exchange [0; 1; 0; 0; 0; 0; 0]) =
  (Spi.mk_spi (Spi.mk_dev true [] []) 7 None,
   [Some 255; None; None; Some 69; Some 255; None; None]).
Proof. exact (spi_long_session Spi.NEO false 0 None 0 1 0 0 0 [0; 0] ltac:(cbn; lia)). Defined.

(** A session cut after three exchanges leaves the answer to its second
    byte, and 0xFF, in the transmit FIFO: neither [disable] nor the next
    [enable] flushes it, so the next session shifts out that stale answer
    and 0xFF before its own preload, and its own answer on its fourth
    exchange. *)
Theorem spi_stale_answer_next_session fw (p o x q1 q2 q3 q4 q5 : Z) :
  snd (Spi.bus_run fw Spi.spi_new
         [Spi.CsLow; Spi.Exchange p; Spi.Exchange o; Spi.Exchange x; Spi.CsHigh;
          Spi.CsLow; Spi.Exchange q1; Spi.Exchange q2; Spi.Exchange q3;
          Spi.Exchange q4; Spi.Exchange q5; Spi.CsHigh]) =
  [Some 255; None; None;
   Some (Spi.lookup fw o); Some 255; Some 255; Some (Spi.lookup fw q2); Some 255].
Proof. reflexivity. Qed.

(** ** Power sequencer: invariants of the reachable states *)

Lemma power_inv_b_step b e b' :
  power_inv_b b = true -> Power.step b e = Some b' -> power_inv_b b' = true.
Proof.
  destruct b as [st led dc rst ls bp ep].
  destruct st, led, dc, rst, bp, ep; cbn; intros Hi Hs; try discriminate Hi;
    destruct ls;
    (destruct e as [l s r | |];
      [destruct l as [[|]|], s as [[|]|], r as [[|]|] | |]);
    vm_compute in Hs; first [discriminate Hs | injection Hs as <-; reflexivity].
Qed.

Lemma reachable_power_inv_b b : Power.reachable b -> power_inv_b b = true.
Proof.
  intros Hr. induction Hr as [|b e b' _ IH Hs]; [reflexivity|].
  exact (power_inv_b_step b e b' IH Hs).
Qed.

(** In every reachable state of the pico power sequencer, the power LED is
    on whenever the power state is Starting or On: the blink task, the only
    other writer of the LED, writes nothing outside Off. *)
Theorem reachable_led_on_when_powered (b : Power.Board) :
  Power.reachable b -> Power.state_dc_power_enabled b <> Power.Off ->
  Power.led_power b = Power.High.
Proof.
  intros Hr Hs. pose proof (reachable_power_inv_b b Hr) as Hi.
  destruct b as [[] [] [] [] ls [] []]; cbn in *; congruence.
Qed.

Lemma reachable_led_on_when_powered_witness :
  Power.led_power (Power.mk_board Power.Starting Power.High Power.High Power.High false true false)
    = Power.High.
Proof.
  apply reachable_led_on_when_powered; [|discriminate].
  apply (run_reachable [Power.Poll None (Some Power.Rising) None] Power.init);
    [constructor | reflexivity].
Defined.

(** In every reachable state, the system reset line is high while the power
    state is Starting: the Off-to-Starting transition drives it high, and
    nothing pulls it low before the state is On. *)
Theorem reachable_reset_high_while_starting (b : Power.Board) :
  Power.reachable b -> Power.state_dc_power_enabled b = Power.Starting ->
  Power.pin_sys_reset b = Power.High.
Proof.
  intros Hr Hs. pose proof (reachable_power_inv_b b Hr) as Hi.
  destruct b as [[] [] [] [] ls [] []]; cbn in *; congruence.
Qed.

Lemma reachable_reset_high_while_starting_witness :
  Power.pin_sys_reset
    (Power.mk_board Power.Starting Power.High Power.High Power.High false true false)
    = Power.High.
Proof.
  apply reachable_reset_high_while_starting; [|reflexivity].
  apply (run_reachable [Power.Poll None (Some Power.Rising) None] Power.init);
    [constructor | reflexivity].
Defined.

(** In every reachable state where the power is On and the reset line is
    low, an [exit_reset] run is pending: a reset pulse while powered on
    always has its release scheduled. *)
Theorem reachable_reset_pulse_release_pending (b : Power.Board) :
  Power.reachable b -> Power.state_dc_power_enabled b = Power.On ->
  Power.pin_sys_reset b = Power.Low -> Power.exit_reset_pending b = true.
Proof.
  intros Hr Hs Hl. pose proof (reachable_power_inv_b b Hr) as Hi.
  destruct b as [[] [] [] [] ls [] []]; cbn in *; congruence.
Qed.

Lemma reachable_reset_pulse_release_pending_witness :
  Power.exit_reset_pending
    (Power.mk_board Power.On Power.High Power.High Power.Low false true true) = true.
Proof.
  apply reachable_reset_pulse_release_pending; [|reflexivity|reflexivity].
  apply (run_reachable
    [Power.Poll None (Some Power.Rising) None; Power.Poll None (Some Power.Falling) None;
     Power.Poll None None (Some Power.Rising)] Power.init);
    [constructor | reflexivity].
Defined.

(** In every reachable state where the power is Off, a [led_power_blink]
    run is pending: [init] spawns it, each run in Off re-spawns it, and the
    On-to-Off transition spawns it. *)
Theorem reachable_off_blink_pending (b : Power.Board) :
  Power.reachable b -> Power.state_dc_power_enabled b = Power.Off ->
  Power.blink_pending b = true.
Proof.
  intros Hr Hs. pose proof (reachable_power_inv_b b Hr) as Hi.
  destruct b as [[] [] [] [] ls [] []]; cbn in *; congruence.
Qed.

Lemma reachable_off_blink_pending_witness :
  Power.blink_pending
    (Power.mk_board Power.Off Power.Low Power.Low Power.Low false true false) = true.
Proof.
  apply reachable_off_blink_pending; [|reflexivity].
  apply (run_reachable
    [Power.Poll None (Some Power.Rising) None; Power.Poll None (Some Power.Falling) None;
     Power.RunLedPowerBlink; Power.Poll (Some Power.Rising) None None] Power.init);
    [constructor | reflexivity].
Defined.
